(** * mediaplayerctl: a shallow embedding of src/mediaplayerctl.cpp

    The program discovers MPRIS players on the session bus, queries
    their playback status and resolves one user command into a map
    player -> method to call.

    - [std::string] is [String.string]; its [operator<] is the byte-wise
      lexicographic [String.compare].
    - [std::set<std::string>] and [std::map<std::string, _>] are lists
      kept strictly sorted by that order; [insert], [operator[]] and
      [begin()] are written out over them.
    - The bus is an oracle record [Bus]; the effects of the program are
      a trace of events together with the way it ends (a value or an
      [exit] code), in a small writer/exit monad [M]. *)

From Stdlib Require Import String Ascii List Bool ZArith Lia Sorted.
From Stdlib Require Import Structures.OrdersEx RelationClasses.
Import ListNotations.
Open Scope string_scope.

(** ** Data model *)

(** [enum State {STOPPED, PAUSED, PLAYING};] *)
Inductive State := STOPPED | PAUSED | PLAYING.

Definition State_eqb (a b : State) : bool :=
  match a, b with
  | STOPPED, STOPPED | PAUSED, PAUSED | PLAYING, PLAYING => true
  | _, _ => false
  end.

(** [std::string::operator<] *)
Definition str_lt (a b : string) : Prop := String.compare a b = Lt.

(** [using PlayerSet = std::set<std::string>;] *)
Definition PlayerSet := list string.
(** [using PlayerStates = std::map<std::string, State>;] *)
Definition PlayerStates := list (string * State).
(** [using PlayerActions = std::map<std::string, std::string>;] *)
Definition PlayerActions := list (string * string).

(** [std::set<std::string>::insert] *)
Fixpoint set_insert (x : string) (s : list string) : list string :=
  match s with
  | [] => [x]
  | y :: s' =>
      match String.compare x y with
      | Lt => x :: s
      | Eq => s
      | Gt => y :: set_insert x s'
      end
  end.

(** [m[k] = v] on a [std::map<std::string, V>] *)
Fixpoint map_assign {V} (k : string) (v : V) (m : list (string * V))
  : list (string * V) :=
  match m with
  | [] => [(k, v)]
  | (k', v') :: m' =>
      match String.compare k k' with
      | Lt => (k, v) :: m
      | Eq => (k, v) :: m'
      | Gt => (k', v') :: map_assign k v m'
      end
  end.

(** [std::map::find] *)
Fixpoint map_lookup {V} (k : string) (m : list (string * V)) : option V :=
  match m with
  | [] => None
  | (k', v') :: m' => if String.eqb k k' then Some v' else map_lookup k m'
  end.

Definition is_empty {A} (l : list A) : bool :=
  match l with [] => true | _ => false end.

(** ** Effects: trace of events, and [exit] *)

Inductive event :=
| Stdout (s : string)
| Stderr (s : string)
| BusConnect
| BusProxy (service path iface : string)
| BusCall (service iface meth : string).

Inductive res (A : Type) :=
| Ok (a : A)
| Halt (code : Z).
Arguments Ok {A} a.
Arguments Halt {A} code.

Definition M (A : Type) : Type := (list event * res A)%type.

Definition ret {A} (a : A) : M A := ([], Ok a).
Definition halt {A} (code : Z) : M A := ([], Halt code).
Definition emit (e : event) : M unit := ([e], Ok tt).

Definition bind {A B} (m : M A) (f : A -> M B) : M B :=
  match m with
  | (t1, Ok a) => match f a with (t2, r) => ((t1 ++ t2)%list, r) end
  | (t1, Halt z) => (t1, Halt z)
  end.

Notation "x <- m ;; k" := (bind m (fun x => k))
  (at level 61, m at next level, right associativity).
Notation "m ;; k" := (bind m (fun _ => k))
  (at level 61, right associativity).

(** The exit status of a finished run: [return n] from [main] or [exit(n)]. *)
Definition exit_status (r : res Z) : Z :=
  match r with Ok z => z | Halt z => z end.

(** ** The environment of a run: the session bus, as seen by the program,
    and the text comparison of the process locale *)

Record Bus := {
  (** [Connection::get_sync] returns a non-null connection *)
  connect_ok : bool;
  (** [Proxy::create_sync(connection, service, path, iface)] succeeds *)
  proxy_ok : string -> string -> string -> bool;
  (** reply of [ListNames]; [None] when the call throws [Glib::Error] *)
  list_names : option (list string);
  (** strings decoded from the reply of [Get] on a player; [None] when
      the call throws [Glib::Error] *)
  get_status : string -> option (list string);
  (** a no-argument player method call succeeds *)
  method_ok : string -> string -> bool;
  (** [Glib::ustring]'s [operator==] with a C string, [a.compare(b) == 0],
      that is [g_utf8_collate(a, b) == 0]: both texts are NFKC-normalised
      and compared with the collation of the locale installed by
      [std::locale::global(std::locale(""))] *)
  ustring_eq : string -> string -> bool
}.

Definition got_error : string := "Got an error".
Definition no_proxy : string :=
  "The proxy to the user's session bus was not successfully created.".

Definition usage_line (progname : string) : string :=
  "usage: " ++ progname ++ " <play|pause|playpause|stop|next|prev>".

(** [usage()]: [progname] is the global set from [argv[0]]. *)
Definition usage (progname : string) : M unit :=
  emit (Stdout (usage_line progname)).

(** [eval_args]: [argv = progname :: args], [argc = 1 + length args]. *)
Definition eval_args (progname : string) (args : list string) : M string :=
  match args with
  | [arg] => ret arg
  | _ => usage progname;; halt 127
  end.

(** ** findPlayer and evalActions *)

Definition findPlayer (pstates : PlayerStates) (states : list State) : PlayerSet :=
  fold_left
    (fun result entry =>
       fold_left
         (fun result state =>
            if State_eqb (snd entry) state then set_insert (fst entry) result
            else result)
         states result)
    pstates [].

(** [for (player : players) result[player] = meth;] *)
Definition assign_all (players : PlayerSet) (meth : string)
  (result : PlayerActions) : PlayerActions :=
  fold_left (fun result player => map_assign player meth result) players result.

(** [result[*player.begin()] = meth] when [player] is non-empty *)
Definition assign_first (player : PlayerSet) (meth : string)
  (result : PlayerActions) : PlayerActions :=
  match player with
  | p :: _ => map_assign p meth result
  | [] => result
  end.

(** The [play] branch, shared verbatim by [play] and [playpause]. *)
Definition play_candidates (states : PlayerStates) : PlayerSet :=
  let player := findPlayer states [PAUSED] in
  if is_empty player then findPlayer states [STOPPED] else player.

Definition evalActions (progname method : string) (states : PlayerStates)
  : M PlayerActions :=
  let result : PlayerActions := [] in
  let players_playing := findPlayer states [PLAYING] in
  if method =? "play" then
    ret (if is_empty players_playing
         then assign_first (play_candidates states) "Play" result
         else result)
  else if method =? "pause" then
    ret (assign_all players_playing "Pause" result)
  else if method =? "playpause" then
    ret (if is_empty players_playing
         then assign_first (play_candidates states) "Play" result
         else assign_all players_playing "Pause" result)
  else if method =? "stop" then
    ret (assign_all (findPlayer states [PLAYING; PAUSED]) "Stop" result)
  else if method =? "next" then
    ret (if negb (is_empty players_playing)
         then assign_first players_playing "Next" result
         else result)
  else if method =? "prev" then
    ret (if negb (is_empty players_playing)
         then assign_first players_playing "Previous" result
         else result)
  else
    emit (Stderr ("Unknown method " ++ method));;
    usage progname;;
    halt 127.

(** ** Discovery, aggregation, dispatch *)

Definition registrar : string := "org.freedesktop.DBus".
Definition registrar_path : string := "/org/freedesktop/DBus".
Definition mpris_prefix : string := "org.mpris.MediaPlayer2.".
Definition mpris_path : string := "/org/mpris/MediaPlayer2".
Definition props_iface : string := "org.freedesktop.DBus.Properties".
Definition player_iface : string := "org.mpris.MediaPlayer2.Player".

(** The filter loop over the [ListNames] reply:
    [i.compare(0, prefix.size(), prefix) == 0] holds exactly when
    [prefix] is a prefix of [i]. *)
Definition filter_names (names : list string) (result : PlayerSet) : PlayerSet :=
  fold_left
    (fun result i => if String.prefix mpris_prefix i then set_insert i result
                     else result)
    names result.

Definition getMediaPlayerInstances (bus : Bus) : M PlayerSet :=
  let result : PlayerSet := [] in
  emit (BusProxy registrar registrar_path registrar);;
  if negb (proxy_ok bus registrar registrar_path registrar) then
    emit (Stderr no_proxy);; halt 2
  else
    emit (BusCall registrar registrar "ListNames");;
    match list_names bus with
    | Some names => ret (filter_names names result)
    | None => emit (Stderr got_error);; ret result
    end.

(** Evaluation of the [Get] reply of one player, the body of the [try].
    [state] is a [std::vector<Glib::ustring>], so [state[0] == "Playing"]
    is the locale comparison [ustring_eq]. *)
Definition eval_state (bus : Bus) (player : string) (result : PlayerStates)
  : M PlayerStates :=
  match get_status bus player with
  | None => emit (Stderr got_error);; ret result
  | Some state =>
      if negb (Nat.eqb (length state) 1) then
        emit (Stderr ("Unable to determine state of " ++ player));; ret result
      else
        let s := hd "" state in
        if ustring_eq bus s "Playing" then ret (map_assign player PLAYING result)
        else if ustring_eq bus s "Paused" then ret (map_assign player PAUSED result)
        else if ustring_eq bus s "Stopped" then ret (map_assign player STOPPED result)
        else emit (Stderr ("Unknown state " ++ s ++ " of " ++ player));; ret result
  end.

(** The [for (player : players)] loop of [getMediaPlayerStates]. *)
Fixpoint states_loop (bus : Bus) (players : PlayerSet) (result : PlayerStates)
  : M PlayerStates :=
  match players with
  | [] => ret result
  | player :: rest =>
      emit (BusProxy player mpris_path props_iface);;
      if negb (proxy_ok bus player mpris_path props_iface) then
        emit (Stderr no_proxy);; halt 3
      else
        emit (BusCall player props_iface "Get");;
        result' <- eval_state bus player result;;
        states_loop bus rest result'
  end.

Definition getMediaPlayerStates (bus : Bus) (players : PlayerSet) : M PlayerStates :=
  states_loop bus players [].

Definition execMediaPlayerMethod (bus : Bus) (player meth : string) : M unit :=
  emit (BusProxy player mpris_path player_iface);;
  if negb (proxy_ok bus player mpris_path player_iface) then
    emit (Stderr no_proxy);; halt 4
  else
    emit (BusCall player player_iface meth);;
    if method_ok bus player meth then ret tt else emit (Stderr got_error).

(** The [for (action : actions)] loop of [main]. *)
Fixpoint dispatch (bus : Bus) (actions : PlayerActions) : M unit :=
  match actions with
  | [] => ret tt
  | (player, meth) :: rest =>
      (if meth =? "" then ret tt else execMediaPlayerMethod bus player meth);;
      dispatch bus rest
  end.

Definition main (bus : Bus) (progname : string) (args : list string) : M Z :=
  method <- eval_args progname args;;
  emit BusConnect;;
  if negb (connect_ok bus) then
    emit (Stderr "The user's session bus is not available.");; ret 1%Z
  else
    players <- getMediaPlayerInstances bus;;
    if is_empty players then
      emit (Stdout "no player found.");; ret 0%Z
    else
      states <- getMediaPlayerStates bus players;;
      actions <- evalActions progname method states;;
      dispatch bus actions;;
      ret 0%Z.

(** The commands [evalActions] accepts. *)
Definition valid_command (c : string) : bool :=
  existsb (String.eqb c) ["play"; "pause"; "playpause"; "stop"; "next"; "prev"].

(** A bus event that is not console output. *)
Definition is_bus_event (e : event) : bool :=
  match e with Stdout _ | Stderr _ => false | _ => true end.

(** A bus event of the dispatch stage: a call on the player interface. *)
Definition is_dispatch_event (e : event) : bool :=
  match e with
  | BusProxy _ _ i | BusCall _ i _ => i =? player_iface
  | _ => false
  end.

(** A concrete bus: one player [vlc] that is playing. For the ASCII status
    names compared on the concrete buses below, [g_utf8_collate] equality
    is byte equality. *)
Definition vlc : string := "org.mpris.MediaPlayer2.vlc".
Definition bus_vlc (names : option (list string)) : Bus := {|
  connect_ok := true;
  proxy_ok := fun _ _ _ => true;
  list_names := names;
  get_status := fun p => if p =? vlc then Some ["Playing"] else None;
  method_ok := fun _ _ => true;
  ustring_eq := String.eqb
|}.

(** A concrete bus: [vlc] is playing, [spotify] answers with an unknown
    status text and [mpv] with two strings. *)
Definition spotify : string := "org.mpris.MediaPlayer2.spotify".
Definition mpv : string := "org.mpris.MediaPlayer2.mpv".
Definition bus_mixed : Bus := {|
  connect_ok := true;
  proxy_ok := fun _ _ _ => true;
  list_names := Some [spotify; "org.freedesktop.Notifications"; mpv; vlc];
  get_status := fun p =>
    if p =? vlc then Some ["Playing"]
    else if p =? spotify then Some ["Buffering"]
    else Some ["Paused"; "Stopped"];
  method_ok := fun _ _ => true;
  ustring_eq := String.eqb
|}.

(** Concrete state maps. *)
Definition st_playing : PlayerStates := [("A", PLAYING); ("B", PAUSED); ("C", PLAYING)].
Definition st_paused : PlayerStates := [("A", STOPPED); ("B", PAUSED); ("C", PAUSED)].
Definition st_stopped : PlayerStates := [("A", STOPPED); ("B", STOPPED)].
Definition players_mixed : PlayerSet := [mpv; spotify; vlc].

(** The UTF-8 encoding of the fullwidth forms U+FF01..U+FF5E is
    EF BC 81..BF and EF BD 80..9E; NFKC normalisation maps each of them to
    the ASCII character U+0021..U+007E at the same offset. [fold_fullwidth]
    performs this part of the normalisation and leaves every other byte. *)
Fixpoint fold_fullwidth (s : string) : string :=
  match s with
  | EmptyString => EmptyString
  | String a s1 =>
      match s1 with
      | String b (String c rest) =>
          let a' := nat_of_ascii a in
          let b' := nat_of_ascii b in
          let c' := nat_of_ascii c in
          if Nat.eqb a' 239 && Nat.eqb b' 188 && Nat.leb 129 c' && Nat.leb c' 191
          then String (ascii_of_nat (c' - 96)) (fold_fullwidth rest)
          else if Nat.eqb a' 239 && Nat.eqb b' 189 && Nat.leb 128 c' && Nat.leb c' 158
          then String (ascii_of_nat (c' - 32)) (fold_fullwidth rest)
          else String a (fold_fullwidth s1)
      | _ => String a (fold_fullwidth s1)
      end
  end.

(** Equality after folding fullwidth forms: on texts made of ASCII and
    fullwidth forms it is [g_utf8_collate(a, b) == 0] whenever the folded
    texts are equal, in every locale ([strcoll] of equal strings is 0). *)
Definition collate_eq_fullwidth (a b : string) : bool :=
  fold_fullwidth a =? fold_fullwidth b.

(** A string given by its bytes. *)
Definition utf8 (l : list nat) : string :=
  fold_right (fun n s => String (ascii_of_nat n) s) EmptyString l.

(** "Playing" spelt with fullwidth letters, U+FF30 U+FF4C U+FF41 U+FF59
    U+FF49 U+FF4E U+FF47. *)
Definition playing_fullwidth : string :=
  utf8 [239; 188; 176; 239; 189; 140; 239; 189; 129; 239; 189; 153;
        239; 189; 137; 239; 189; 142; 239; 189; 135].

(** A concrete environment: [vlc] replies with [playing_fullwidth]. *)
Definition bus_fullwidth : Bus := {|
  connect_ok := true;
  proxy_ok := fun _ _ _ => true;
  list_names := Some [vlc];
  get_status := fun p => if p =? vlc then Some [playing_fullwidth] else None;
  method_ok := fun _ _ => true;
  ustring_eq := collate_eq_fullwidth
|}.

(** The classification [eval_state] applies to a [PlaybackStatus] reply
    under the text equality [ueq]: exactly one string, equal to one of the
    three state names, tried in the order "Playing", "Paused", "Stopped". *)
Definition classify_reply (ueq : string -> string -> bool)
  (r : option (list string)) : option State :=
  match r with
  | Some [s] =>
      if ueq s "Playing" then Some PLAYING
      else if ueq s "Paused" then Some PAUSED
      else if ueq s "Stopped" then Some STOPPED
      else None
  | _ => None
  end.

(** [p] is the lexicographically least player in state [c]. *)
Definition least_in (c : State) (st : PlayerStates) (p : string) : Prop :=
  In (p, c) st /\ forall k, In (k, c) st -> String.leb p k = true.

(** [m] never halts with a code other than [z0]. *)
Definition halts_only_with {A} (z0 : Z) (m : M A) : Prop :=
  forall z, snd m = Halt z -> z = z0.

(** No event of the trace of [m] is a call on the player interface. *)
Definition no_dispatch {A} (m : M A) : Prop :=
  forallb (fun e => negb (is_dispatch_event e)) (fst m) = true.

(** The players queried with [Get] in a trace, in order. *)
Definition get_queries (t : list event) : list string :=
  flat_map (fun e => match e with
                     | BusCall s i m => if (i =? props_iface) && (m =? "Get") then [s] else []
                     | _ => []
                     end) t.

(** The player methods called in a trace, in order. *)
Definition dispatched (t : list event) : list (string * string) :=
  flat_map (fun e => match e with
                     | BusCall s i m => if i =? player_iface then [(s, m)] else []
                     | _ => []
                     end) t.

(** * Properties *)

Lemma State_eqb_eq a b : State_eqb a b = true <-> a = b.
Proof. destruct a, b; simpl; split; congruence. Qed.

(** ** The order on strings *)

Lemma compare_as_OT a b : String.compare a b = String_as_OT.compare a b.
Proof.
  revert b; induction a as [|c a IH]; destruct b as [|d b]; simpl; auto.
Qed.

#[local] Instance str_lt_trans : Transitive str_lt.
Proof.
  intros x y z; unfold str_lt; rewrite !compare_as_OT.
  apply String_as_OT.lt_strorder.
Qed.

Lemma compare_refl a : String.compare a a = Eq.
Proof.
  induction a as [|c a IH]; simpl; auto.
  unfold Ascii.compare; rewrite N.compare_refl; exact IH.
Qed.

Lemma compare_Eq a b : String.compare a b = Eq <-> a = b.
Proof.
  split; [apply String.compare_eq_iff | intros ->; apply compare_refl].
Qed.

Lemma compare_Gt a b : String.compare a b = Gt -> str_lt b a.
Proof.
  unfold str_lt; rewrite String.compare_antisym.
  destruct (String.compare b a); simpl; congruence.
Qed.

Lemma str_lt_leb a b : str_lt a b -> String.leb a b = true.
Proof. unfold str_lt, String.leb; intros ->; reflexivity. Qed.

Lemma leb_refl a : String.leb a a = true.
Proof. unfold String.leb; rewrite compare_refl; reflexivity. Qed.

(** ** std::set insertion *)

Lemma set_insert_In x y s : In x (set_insert y s) <-> x = y \/ In x s.
Proof.
  induction s as [|z s IH]; simpl.
  - firstorder congruence.
  - destruct (String.compare y z) eqn:E; simpl.
    + apply compare_Eq in E; subst; firstorder congruence.
    + firstorder congruence.
    + rewrite IH; firstorder congruence.
Qed.

Lemma set_insert_HdRel x y s :
  str_lt x y -> HdRel str_lt x s -> HdRel str_lt x (set_insert y s).
Proof.
  intros Hxy Hs; destruct s as [|z s]; simpl.
  - constructor; exact Hxy.
  - destruct (String.compare y z); constructor; auto; now inversion Hs.
Qed.

Lemma set_insert_sorted y s :
  Sorted str_lt s -> Sorted str_lt (set_insert y s).
Proof.
  induction s as [|z s IH]; intros Hs; simpl.
  - repeat constructor.
  - apply Sorted_inv in Hs as [Hs Hhd].
    destruct (String.compare y z) eqn:E.
    + constructor; auto.
    + constructor; [constructor; auto | constructor; exact E].
    + constructor; [auto | apply set_insert_HdRel; auto using compare_Gt].
Qed.

(** The first element of a sorted set is its least element. *)
Lemma sorted_head_least p rest :
  Sorted str_lt (p :: rest) -> forall k, In k (p :: rest) -> String.leb p k = true.
Proof.
  intros Hs k Hk.
  apply Sorted_StronglySorted in Hs; [|exact str_lt_trans].
  apply StronglySorted_inv in Hs as [_ Hall].
  destruct Hk as [<- | Hk]; [apply leb_refl|].
  apply str_lt_leb; eapply Forall_forall; eauto.
Qed.

(** ** findPlayer *)

Lemma findPlayer_inner_In k entry states acc :
  In k (fold_left
          (fun result state =>
             if State_eqb (snd entry) state then set_insert (fst entry) result
             else result) states acc)
  <-> In k acc \/ (k = fst entry /\ In (snd entry) states).
Proof.
  revert acc; induction states as [|c states IH]; intros acc; simpl.
  - tauto.
  - rewrite IH.
    destruct (State_eqb (snd entry) c) eqn:E.
    + apply State_eqb_eq in E; rewrite set_insert_In; subst; tauto.
    + assert (snd entry <> c) by (intros Hc; apply State_eqb_eq in Hc; congruence).
      intuition congruence.
Qed.

Lemma findPlayer_acc_In k pstates states acc :
  In k (fold_left
          (fun result entry =>
             fold_left
               (fun result state =>
                  if State_eqb (snd entry) state then set_insert (fst entry) result
                  else result) states result) pstates acc)
  <-> In k acc \/ (exists s, In s states /\ In (k, s) pstates).
Proof.
  revert acc; induction pstates as [|entry pstates IH]; intros acc; simpl.
  - firstorder.
  - rewrite IH, findPlayer_inner_In; destruct entry as [k' s']; simpl.
    split.
    + intros [[H | [-> H]] | [s [Hs Hin]]]; eauto.
    + intros [H | [s [Hs [Heq | Hin]]]]; [tauto | | eauto].
      inversion Heq; subst; tauto.
Qed.

Lemma findPlayer_In k pstates states :
  In k (findPlayer pstates states) <-> exists s, In s states /\ In (k, s) pstates.
Proof. unfold findPlayer; rewrite findPlayer_acc_In; simpl; tauto. Qed.

Lemma findPlayer_one k pstates c :
  In k (findPlayer pstates [c]) <-> In (k, c) pstates.
Proof.
  rewrite findPlayer_In; split.
  - intros [s [[<- | []] H]]; exact H.
  - intros H; exists c; simpl; auto.
Qed.

Lemma findPlayer_sorted pstates states : Sorted str_lt (findPlayer pstates states).
Proof.
  unfold findPlayer.
  assert (Hacc : Sorted str_lt ([] : list string)) by constructor.
  revert Hacc; generalize ([] : list string).
  induction pstates as [|entry pstates IH]; intros acc Hacc; simpl; auto.
  apply IH; clear IH; revert acc Hacc.
  induction states as [|c states IH]; intros acc Hacc; simpl; auto.
  apply IH; destruct (State_eqb _ _); auto using set_insert_sorted.
Qed.

Lemma findPlayer_empty pstates c :
  is_empty (findPlayer pstates [c]) = true <-> forall k, ~ In (k, c) pstates.
Proof.
  split.
  - intros H k Hk; apply findPlayer_one in Hk.
    destruct (findPlayer pstates [c]); [contradiction | discriminate].
  - intros H; destruct (findPlayer pstates [c]) as [|p rest] eqn:E; auto.
    exfalso; apply (H p), findPlayer_one; rewrite E; left; reflexivity.
Qed.

(** The head of [findPlayer pstates [c]] is its least [c] player. *)
Lemma findPlayer_head pstates c p rest :
  findPlayer pstates [c] = p :: rest ->
  In (p, c) pstates /\ forall k, In (k, c) pstates -> String.leb p k = true.
Proof.
  intros E; split.
  - apply findPlayer_one; rewrite E; left; reflexivity.
  - intros k Hk; apply findPlayer_one in Hk; rewrite E in Hk.
    apply (sorted_head_least p rest); [rewrite <- E; apply findPlayer_sorted | exact Hk].
Qed.

(** ** std::map assignment *)

Lemma map_assign_keys {V} k0 (v0 : V) m k :
  In k (map fst (map_assign k0 v0 m)) <-> k = k0 \/ In k (map fst m).
Proof.
  induction m as [|[k' v'] m IH]; simpl; [firstorder congruence|].
  destruct (String.compare k0 k') eqn:E; simpl.
  - apply compare_Eq in E; subst; firstorder congruence.
  - firstorder congruence.
  - rewrite IH; firstorder congruence.
Qed.

Lemma map_assign_vals {V} k0 (v0 : V) m k v :
  In (k, v) (map_assign k0 v0 m) -> (k = k0 /\ v = v0) \/ In (k, v) m.
Proof.
  induction m as [|[k' v'] m IH]; simpl.
  - intros [H | []]; inversion H; auto.
  - destruct (String.compare k0 k'); simpl.
    + intros [H | H]; [inversion H; auto | auto].
    + intros [H | H]; [inversion H; auto | auto].
    + intros [H | H]; [auto | destruct (IH H); auto].
Qed.

Lemma map_assign_lookup {V} k0 (v0 : V) m k :
  map_lookup k (map_assign k0 v0 m) = if k =? k0 then Some v0 else map_lookup k m.
Proof.
  induction m as [|[k' v'] m IH]; simpl; [reflexivity|].
  destruct (String.compare k0 k') eqn:E; simpl.
  - apply compare_Eq in E; subst.
    destruct (k =? k'); reflexivity.
  - reflexivity.
  - rewrite IH.
    destruct (k =? k0) eqn:E1, (k =? k') eqn:E2; auto.
    apply String.eqb_eq in E1, E2; subst.
    rewrite compare_refl in E; discriminate.
Qed.

Lemma map_lookup_In {V} k (m : list (string * V)) :
  In k (map fst m) -> exists v, map_lookup k m = Some v.
Proof.
  induction m as [|[k' v'] m IH]; simpl; [tauto|].
  destruct (k =? k') eqn:E; [eauto|].
  intros [-> | H]; [rewrite String.eqb_refl in E; discriminate | auto].
Qed.

Lemma assign_all_keys players meth result k :
  In k (map fst (assign_all players meth result))
  <-> In k players \/ In k (map fst result).
Proof.
  unfold assign_all; revert result.
  induction players as [|p players IH]; intros result; simpl; [tauto|].
  rewrite IH, map_assign_keys; firstorder congruence.
Qed.

Lemma assign_all_vals players meth result k v :
  In (k, v) (assign_all players meth result) -> v = meth \/ In (k, v) result.
Proof.
  unfold assign_all; revert result.
  induction players as [|p players IH]; intros result H; simpl in H; [auto|].
  destruct (IH _ H) as [-> | H']; auto.
  destruct (map_assign_vals _ _ _ _ _ H') as [[_ ->] | H'']; auto.
Qed.

Lemma assign_all_nil players meth :
  assign_all players meth [] = [] <-> players = [].
Proof.
  split; intros H.
  - destruct players as [|p ps]; auto.
    assert (Hin : In p (map fst (assign_all (p :: ps) meth [])))
      by (apply assign_all_keys; left; left; reflexivity).
    rewrite H in Hin; contradiction.
  - subst; reflexivity.
Qed.

Example main_pause_vlc :
  main (bus_vlc (Some ["org.freedesktop.DBus"; vlc])) "mpc" ["pause"]
  = ([BusConnect; BusProxy registrar registrar_path registrar;
      BusCall registrar registrar "ListNames";
      BusProxy vlc mpris_path props_iface; BusCall vlc props_iface "Get";
      BusProxy vlc mpris_path player_iface; BusCall vlc player_iface "Pause"],
     Ok 0%Z).
Proof. reflexivity. Qed.

Example evalActions_pause_A :
  evalActions "p" "pause" [("A", PLAYING); ("B", PAUSED)] = ret [("A", "Pause")].
Proof. reflexivity. Qed.

Example evalActions_play_B :
  evalActions "p" "play" [("A", STOPPED); ("B", STOPPED)] = ret [("A", "Play")].
Proof. reflexivity. Qed.

(** ** evalActions, command by command *)

Lemma evalActions_play prog st :
  evalActions prog "play" st =
  ret (if is_empty (findPlayer st [PLAYING])
       then assign_first (play_candidates st) "Play" [] else []).
Proof. reflexivity. Qed.

Lemma evalActions_pause prog st :
  evalActions prog "pause" st = ret (assign_all (findPlayer st [PLAYING]) "Pause" []).
Proof. reflexivity. Qed.

Lemma evalActions_playpause prog st :
  evalActions prog "playpause" st =
  ret (if is_empty (findPlayer st [PLAYING])
       then assign_first (play_candidates st) "Play" []
       else assign_all (findPlayer st [PLAYING]) "Pause" []).
Proof. reflexivity. Qed.

Lemma evalActions_stop prog st :
  evalActions prog "stop" st =
  ret (assign_all (findPlayer st [PLAYING; PAUSED]) "Stop" []).
Proof. reflexivity. Qed.

Lemma evalActions_next prog st :
  evalActions prog "next" st =
  ret (if negb (is_empty (findPlayer st [PLAYING]))
       then assign_first (findPlayer st [PLAYING]) "Next" [] else []).
Proof. reflexivity. Qed.

Lemma evalActions_prev prog st :
  evalActions prog "prev" st =
  ret (if negb (is_empty (findPlayer st [PLAYING]))
       then assign_first (findPlayer st [PLAYING]) "Previous" [] else []).
Proof. reflexivity. Qed.

Lemma findPlayer_nil st c :
  findPlayer st [c] = [] <-> forall k, ~ In (k, c) st.
Proof.
  rewrite <- findPlayer_empty.
  destruct (findPlayer st [c]); simpl; split; congruence.
Qed.

(** Turn the shape of [findPlayer st [c]] into facts about [st]. *)
Ltac findPlayer_facts :=
  repeat match goal with
  | H : findPlayer _ [_] = [] |- _ =>
      let Hno := fresh "Hno" in
      pose proof (proj1 (findPlayer_nil _ _) H) as Hno; clear H
  | H : findPlayer _ [_] = _ :: _ |- _ =>
      let Hin := fresh "Hin" in let Hle := fresh "Hle" in
      apply findPlayer_head in H as [Hin Hle]
  end.

(** C2: [pause] targets exactly the playing players, each with [Pause];
    with no playing player the plan is empty. *)
Theorem resolve_pause (prog : string) (st : PlayerStates) :
  exists plan, evalActions prog "pause" st = ret plan /\
    ((forall k, ~ In (k, PLAYING) st) -> plan = []) /\
    (forall k, In k (map fst plan) <-> In (k, PLAYING) st) /\
    (forall k m, In (k, m) plan -> m = "Pause").
Proof.
  eexists; split; [apply evalActions_pause|].
  split; [|split].
  - intros H; apply findPlayer_nil in H; rewrite H; reflexivity.
  - intros k; rewrite assign_all_keys, findPlayer_one; simpl; tauto.
  - intros k m H; destruct (assign_all_vals _ _ _ _ _ H) as [-> | []]; reflexivity.
Qed.

(** C3: [play] does nothing while a player is playing; otherwise it
    targets one paused player, else one stopped player, with [Play];
    the plan never has more than one entry. *)
Theorem resolve_play (prog : string) (st : PlayerStates) :
  exists plan, evalActions prog "play" st = ret plan /\
    length plan <= 1 /\
    ((exists k, In (k, PLAYING) st) -> plan = []) /\
    ((forall k, ~ In (k, PLAYING) st) -> (exists k, In (k, PAUSED) st) ->
       exists p, plan = [(p, "Play")] /\ In (p, PAUSED) st) /\
    ((forall k, ~ In (k, PLAYING) st) -> (forall k, ~ In (k, PAUSED) st) ->
       (exists k, In (k, STOPPED) st) ->
       exists p, plan = [(p, "Play")] /\ In (p, STOPPED) st) /\
    ((forall k, ~ In (k, PAUSED) st /\ ~ In (k, STOPPED) st) -> plan = []).
Proof.
  eexists; split; [apply evalActions_play|].
  unfold play_candidates.
  destruct (findPlayer st [PLAYING]) as [|q qs] eqn:Eplaying;
  [destruct (findPlayer st [PAUSED]) as [|a as_] eqn:Epaused;
   [destruct (findPlayer st [STOPPED]) as [|b bs] eqn:Estopped|]|];
  simpl; findPlayer_facts;
  repeat split; simpl; try lia; intros;
  try reflexivity; try (eexists; split; [reflexivity|]; assumption);
  firstorder.
Qed.

(** C4: [stop] targets exactly the playing and paused players, each with
    [Stop]; a player with no playing or paused entry (stopped, or absent)
    is never targeted. *)
Theorem resolve_stop (prog : string) (st : PlayerStates) :
  exists plan, evalActions prog "stop" st = ret plan /\
    (forall k, In k (map fst plan) <-> In (k, PLAYING) st \/ In (k, PAUSED) st) /\
    (forall k m, In (k, m) plan -> m = "Stop") /\
    (forall k, (forall s, In (k, s) st -> s = STOPPED) -> ~ In k (map fst plan)).
Proof.
  eexists; split; [apply evalActions_stop|].
  assert (Hkeys : forall k, In k (map fst (assign_all (findPlayer st [PLAYING; PAUSED]) "Stop" []))
                   <-> In (k, PLAYING) st \/ In (k, PAUSED) st).
  { intros k; rewrite assign_all_keys, findPlayer_In; simpl.
    split.
    - intros [[s [[<- | [<- | []]] H]] | []]; auto.
    - intros [H | H]; left; eauto. }
  split; [exact Hkeys|split].
  - intros k m H; destruct (assign_all_vals _ _ _ _ _ H) as [-> | []]; reflexivity.
  - intros k Hst Hin; apply Hkeys in Hin as [H | H]; apply Hst in H; discriminate.
Qed.

(** C5: [playpause] resolves as [pause] when a player is playing, and as
    [play] otherwise. *)
Theorem resolve_playpause (prog : string) (st : PlayerStates) :
  ((exists k, In (k, PLAYING) st) ->
     evalActions prog "playpause" st = evalActions prog "pause" st) /\
  ((forall k, ~ In (k, PLAYING) st) ->
     evalActions prog "playpause" st = evalActions prog "play" st).
Proof.
  rewrite evalActions_playpause, evalActions_pause, evalActions_play.
  destruct (findPlayer st [PLAYING]) as [|q qs] eqn:Eplaying;
  simpl; findPlayer_facts; split; intros H; try reflexivity; firstorder.
Qed.

(** C6: [next] and [prev] target one playing player (the same one), with
    [Next] and [Previous]; with no playing player their plans are empty. *)
Theorem resolve_next_prev (prog : string) (st : PlayerStates) :
  exists plan_next plan_prev,
    evalActions prog "next" st = ret plan_next /\
    evalActions prog "prev" st = ret plan_prev /\
    ((exists k, In (k, PLAYING) st) ->
       exists p, In (p, PLAYING) st /\
                 plan_next = [(p, "Next")] /\ plan_prev = [(p, "Previous")]) /\
    ((forall k, ~ In (k, PLAYING) st) -> plan_next = [] /\ plan_prev = []).
Proof.
  do 2 eexists; split; [apply evalActions_next|split; [apply evalActions_prev|]].
  destruct (findPlayer st [PLAYING]) as [|q qs] eqn:Eplaying;
  simpl; findPlayer_facts; split; intros H; firstorder.
Qed.

(** C10: in every "pick exactly one" case the targeted player is the
    lexicographically least player of the candidate set: the paused
    players (else the stopped ones) for [play] and [playpause], the
    playing players for [next] and [prev]. *)
Theorem resolve_pick_least (prog : string) (st : PlayerStates) :
  ((forall k, ~ In (k, PLAYING) st) -> (exists k, In (k, PAUSED) st) ->
     exists p, least_in PAUSED st p /\
       evalActions prog "play" st = ret [(p, "Play")] /\
       evalActions prog "playpause" st = ret [(p, "Play")]) /\
  ((forall k, ~ In (k, PLAYING) st) -> (forall k, ~ In (k, PAUSED) st) ->
   (exists k, In (k, STOPPED) st) ->
     exists p, least_in STOPPED st p /\
       evalActions prog "play" st = ret [(p, "Play")] /\
       evalActions prog "playpause" st = ret [(p, "Play")]) /\
  ((exists k, In (k, PLAYING) st) ->
     exists p, least_in PLAYING st p /\
       evalActions prog "next" st = ret [(p, "Next")] /\
       evalActions prog "prev" st = ret [(p, "Previous")]).
Proof.
  rewrite evalActions_play, evalActions_playpause, evalActions_next, evalActions_prev.
  unfold play_candidates, least_in.
  destruct (findPlayer st [PLAYING]) as [|q qs] eqn:Eplaying;
  [destruct (findPlayer st [PAUSED]) as [|a as_] eqn:Epaused;
   [destruct (findPlayer st [STOPPED]) as [|b bs] eqn:Estopped|]|];
  simpl; findPlayer_facts;
  repeat split; intros; try (eexists; split; [split; eassumption|split; reflexivity]);
  firstorder.
Qed.

(** ** The monad *)

Lemma bind_Ok {A B} (m : M A) (f : A -> M B) t b :
  bind m f = (t, Ok b) ->
  exists t1 a t2, m = (t1, Ok a) /\ f a = (t2, Ok b) /\ t = (t1 ++ t2)%list.
Proof.
  unfold bind; destruct m as [t1 [a|z]]; [|discriminate].
  destruct (f a) as [t2 r] eqn:E; intros H; inversion H; subst; eauto 6.
Qed.

Lemma bind_fst {A B} (m : M A) (f : A -> M B) :
  fst (bind m f) = (fst m ++ match snd m with Ok a => fst (f a) | Halt _ => [] end)%list.
Proof.
  unfold bind; destruct m as [t1 [a|z]]; simpl; [|rewrite app_nil_r; reflexivity].
  destruct (f a); reflexivity.
Qed.

Lemma bind_snd {A B} (m : M A) (f : A -> M B) :
  snd (bind m f) = match snd m with Ok a => snd (f a) | Halt z => Halt z end.
Proof.
  unfold bind; destruct m as [t1 [a|z]]; simpl; [|reflexivity].
  destruct (f a); reflexivity.
Qed.

(** ** Aggregation *)

Lemma eval_state_Ok bus player acc :
  snd (eval_state bus player acc) =
  Ok (match classify_reply (ustring_eq bus) (get_status bus player) with
      | Some s => map_assign player s acc
      | None => acc
      end).
Proof.
  unfold eval_state, classify_reply.
  destruct (get_status bus player) as [[|s [|s' l]]|]; simpl; try reflexivity.
  destruct (ustring_eq bus s "Playing"); [reflexivity|].
  destruct (ustring_eq bus s "Paused"); [reflexivity|].
  destruct (ustring_eq bus s "Stopped"); reflexivity.
Qed.

Lemma states_loop_lookup bus players acc t m :
  states_loop bus players acc = (t, Ok m) ->
  forall p, map_lookup p m =
    if existsb (String.eqb p) players
    then match classify_reply (ustring_eq bus) (get_status bus p) with
         | Some s => Some s
         | None => map_lookup p acc
         end
    else map_lookup p acc.
Proof.
  revert acc t; induction players as [|player rest IH]; intros acc t H p.
  - inversion H; reflexivity.
  - cbn [states_loop existsb] in *.
    apply bind_Ok in H as (t1 & [] & t2 & _ & H & _).
    destruct (negb (proxy_ok bus player mpris_path props_iface));
      [apply bind_Ok in H as (? & ? & ? & _ & H & _); discriminate|].
    apply bind_Ok in H as (t3 & [] & t4 & _ & H & _).
    apply bind_Ok in H as (t5 & acc' & t6 & Hst & H & _).
    rewrite (IH _ _ H p).
    pose proof (eval_state_Ok bus player acc) as Hacc; rewrite Hst in Hacc; simpl in Hacc.
    inversion Hacc; subst acc'; clear Hacc.
    destruct (p =? player) eqn:Ep; simpl.
    + apply String.eqb_eq in Ep; subst p.
      destruct (classify_reply (ustring_eq bus) (get_status bus player)) eqn:Ec;
        [rewrite map_assign_lookup, String.eqb_refl|];
        destruct (existsb _ rest); reflexivity.
    + destruct (classify_reply (ustring_eq bus) (get_status bus player));
        [rewrite map_assign_lookup, Ep|]; reflexivity.
Qed.

(** C8 (as amended): a player whose state is recorded has the state its
    reply names under the locale comparison [ustring_eq] (its only string
    compares equal to "Playing", "Paused" or "Stopped", tried in this
    order); a reply of any other arity, or whose text compares equal to
    none of the three, leaves the player out of the map. The entry of each
    player depends on its own reply only, so the failure of one player
    does not change the entries of the others. *)
Theorem aggregate_classify (bus : Bus) (players : PlayerSet)
  (t : list event) (m : PlayerStates)
  (H : getMediaPlayerStates bus players = (t, Ok m)) :
  (forall p, In p players ->
     map_lookup p m = classify_reply (ustring_eq bus) (get_status bus p)) /\
  (forall p, classify_reply (ustring_eq bus) (get_status bus p) = None ->
     ~ In p (map fst m)).
Proof.
  pose proof (states_loop_lookup _ _ _ _ _ H) as Hl; simpl in Hl.
  split.
  - intros p Hp.
    rewrite Hl.
    replace (existsb (String.eqb p) players) with true
      by (symmetry; apply existsb_exists; exists p; split; [exact Hp | apply String.eqb_refl]).
    destruct (classify_reply _ _); reflexivity.
  - intros p Hc Hin.
    destruct (map_lookup_In _ _ Hin) as [v Hv].
    rewrite Hl, Hc in Hv; destruct (existsb _ _); discriminate.
Qed.

Lemma findPlayer_keys st states k :
  In k (findPlayer st states) -> In k (map fst st).
Proof.
  intros H; apply findPlayer_In in H as [s [_ H]].
  apply (in_map fst) in H; exact H.
Qed.

Lemma assign_all_keys_nil players meth k :
  In k (map fst (assign_all players meth [])) -> In k players.
Proof. rewrite assign_all_keys; simpl; tauto. Qed.

Lemma assign_first_keys_nil players meth k :
  In k (map fst (assign_first players meth [])) -> In k players.
Proof. destruct players; simpl; tauto. Qed.

Lemma play_candidates_keys st k :
  In k (play_candidates st) -> In k (map fst st).
Proof.
  unfold play_candidates; destruct (is_empty _); apply findPlayer_keys.
Qed.

(** C9: aggregation records only players of the discovered set, and
    resolution targets only players of the state map it is given. *)
Theorem pipeline_keys :
  (forall bus players t m,
     getMediaPlayerStates bus players = (t, Ok m) ->
     forall k, In k (map fst m) -> In k players) /\
  (forall prog cmd st t plan,
     evalActions prog cmd st = (t, Ok plan) ->
     forall k, In k (map fst plan) -> In k (map fst st)).
Proof.
  split.
  - intros bus players t m H k Hk.
    pose proof (states_loop_lookup _ _ _ _ _ H k) as Hl; simpl in Hl.
    destruct (map_lookup_In _ _ Hk) as [v Hv]; rewrite Hv in Hl.
    destruct (existsb (String.eqb k) players) eqn:E.
    + apply existsb_exists in E as [x [Hx Ex]].
      apply String.eqb_eq in Ex; subst x; exact Hx.
    + discriminate.
  - intros prog cmd st t plan H k Hk.
    unfold evalActions in H.
    destruct (cmd =? "play");
    [|destruct (cmd =? "pause");
    [|destruct (cmd =? "playpause");
    [|destruct (cmd =? "stop");
    [|destruct (cmd =? "next");
    [|destruct (cmd =? "prev")]]]]];
    inversion H; subst plan; clear H;
    repeat match goal with
           | Hk : context [if ?b then _ else _] |- _ => destruct b
           end;
    simpl in Hk; try contradiction;
    first [ apply assign_first_keys_nil in Hk
          | apply assign_all_keys_nil in Hk ];
    first [ apply play_candidates_keys in Hk | apply findPlayer_keys in Hk ];
    exact Hk.
Qed.

(** ** main *)

Lemma bind_halts {A B} z0 (m : M A) (f : A -> M B) :
  halts_only_with z0 m -> (forall a, halts_only_with z0 (f a)) ->
  halts_only_with z0 (bind m f).
Proof.
  unfold halts_only_with; intros Hm Hf z; rewrite bind_snd.
  destruct (snd m) eqn:E; [apply Hf | intros H; inversion H; subst; auto].
Qed.

Lemma bind_no_dispatch {A B} (m : M A) (f : A -> M B) :
  no_dispatch m -> (forall a, no_dispatch (f a)) -> no_dispatch (bind m f).
Proof.
  unfold no_dispatch; intros Hm Hf; rewrite bind_fst, forallb_app, Hm; simpl.
  destruct (snd m); [apply Hf | reflexivity].
Qed.

Create HintDb effects.
#[local] Hint Resolve bind_halts bind_no_dispatch : effects.

Lemma ret_halts {A} z0 (a : A) : halts_only_with z0 (ret a).
Proof. intros z H; discriminate. Qed.

Lemma emit_halts z0 e : halts_only_with z0 (emit e).
Proof. intros z H; discriminate. Qed.

Lemma halt_halts {A} z0 : halts_only_with z0 (halt (A := A) z0).
Proof. intros z H; inversion H; reflexivity. Qed.

Lemma ret_no_dispatch {A} (a : A) : no_dispatch (ret a).
Proof. reflexivity. Qed.

Lemma halt_no_dispatch {A} z : no_dispatch (halt (A := A) z).
Proof. reflexivity. Qed.

#[local] Hint Resolve ret_halts emit_halts halt_halts ret_no_dispatch halt_no_dispatch
  : effects.

(** Split the [if]s and [match]es of a monadic term under analysis. *)
Ltac effects_step :=
  match goal with
  | |- context [if ?b then _ else _] => destruct b
  | |- context [match ?x with Some _ => _ | None => _ end] => destruct x
  | |- context [match ?x with [] => _ | _ :: _ => _ end] => destruct x
  end.

Lemma eval_state_halts z0 bus player acc : halts_only_with z0 (eval_state bus player acc).
Proof.
  unfold eval_state; repeat (effects_step || eauto with effects);
  apply bind_halts; eauto with effects.
Qed.

Lemma getMediaPlayerInstances_halts bus : halts_only_with 2%Z (getMediaPlayerInstances bus).
Proof.
  unfold getMediaPlayerInstances; repeat (apply bind_halts; intros);
  repeat (effects_step || eauto with effects).
Qed.

Lemma states_loop_halts bus players acc : halts_only_with 3%Z (states_loop bus players acc).
Proof.
  revert acc; induction players as [|player rest IH]; intros acc; cbn [states_loop];
  eauto with effects.
  apply bind_halts; [apply emit_halts|intros _].
  effects_step; repeat (apply bind_halts; intros); eauto using eval_state_halts with effects.
Qed.

Lemma emit_no_dispatch e : is_dispatch_event e = false -> no_dispatch (emit e).
Proof. intros H; unfold no_dispatch; simpl; rewrite H; reflexivity. Qed.

#[local] Hint Resolve emit_no_dispatch : effects.

Lemma eval_state_no_dispatch bus player acc : no_dispatch (eval_state bus player acc).
Proof.
  unfold eval_state; repeat (effects_step || (apply bind_no_dispatch; intros));
  eauto with effects.
Qed.

Lemma getMediaPlayerInstances_no_dispatch bus : no_dispatch (getMediaPlayerInstances bus).
Proof.
  unfold getMediaPlayerInstances;
  repeat (effects_step || (apply bind_no_dispatch; intros)); eauto with effects.
Qed.

Lemma states_loop_no_dispatch bus players acc : no_dispatch (states_loop bus players acc).
Proof.
  revert acc; induction players as [|player rest IH]; intros acc; cbn [states_loop].
  - apply ret_no_dispatch.
  - repeat (effects_step || (apply bind_no_dispatch; intros));
    eauto using eval_state_no_dispatch with effects.
Qed.

Lemma valid_command_false cmd :
  valid_command cmd = false ->
  (cmd =? "play") = false /\ (cmd =? "pause") = false /\
  (cmd =? "playpause") = false /\ (cmd =? "stop") = false /\
  (cmd =? "next") = false /\ (cmd =? "prev") = false.
Proof.
  unfold valid_command; simpl.
  rewrite !orb_false_iff; tauto.
Qed.

Lemma evalActions_invalid prog cmd st :
  valid_command cmd = false ->
  evalActions prog cmd st =
  ([Stderr ("Unknown method " ++ cmd); Stdout (usage_line prog)], Halt 127%Z).
Proof.
  intros H; apply valid_command_false in H as (E1 & E2 & E3 & E4 & E5 & E6).
  unfold evalActions; rewrite E1, E2, E3, E4, E5, E6; reflexivity.
Qed.

(** [main] with one argument, up to the resolution of the command. *)
Lemma main_one_arg bus prog cmd :
  main bus prog [cmd] =
  (emit BusConnect;;
   if negb (connect_ok bus) then
     emit (Stderr "The user's session bus is not available.");; ret 1%Z
   else
     players <- getMediaPlayerInstances bus;;
     if is_empty players then
       emit (Stdout "no player found.");; ret 0%Z
     else
       states <- getMediaPlayerStates bus players;;
       actions <- evalActions prog cmd states;;
       dispatch bus actions;;
       ret 0%Z).
Proof.
  unfold main, eval_args, ret at 1, bind at 1.
  destruct (bind (emit BusConnect) _) as [t r]; reflexivity.
Qed.

Lemma bind_no_dispatch_halt {A B} (m : M A) (f : A -> M B) z :
  no_dispatch m -> snd m = Halt z -> no_dispatch (bind m f).
Proof.
  unfold no_dispatch; intros Hm Hz; rewrite bind_fst, forallb_app, Hm, Hz; reflexivity.
Qed.

Lemma main_invalid_no_dispatch bus prog cmd :
  valid_command cmd = false -> no_dispatch (main bus prog [cmd]).
Proof.
  intros Hinv; rewrite main_one_arg.
  apply bind_no_dispatch; [apply emit_no_dispatch; reflexivity | intros _].
  destruct (negb (connect_ok bus)); [eauto with effects|].
  apply bind_no_dispatch; [apply getMediaPlayerInstances_no_dispatch | intros players].
  destruct (is_empty players); [eauto with effects|].
  apply bind_no_dispatch; [apply states_loop_no_dispatch | intros states].
  apply (bind_no_dispatch_halt _ _ 127%Z); rewrite evalActions_invalid by exact Hinv;
  reflexivity.
Qed.

(** C1 (as the code has it): when the [ListNames] call fails, the error
    is logged, discovery yields the empty set and the program ends as
    when no player is running: it prints "no player found." and returns
    0, with no state query and no dispatch. *)
Theorem registrar_failure_not_fatal (bus : Bus) (prog cmd : string)
  (Hc : connect_ok bus = true)
  (Hp : proxy_ok bus registrar registrar_path registrar = true)
  (Hl : list_names bus = None) :
  main bus prog [cmd] =
  ([BusConnect; BusProxy registrar registrar_path registrar;
    BusCall registrar registrar "ListNames"; Stderr got_error;
    Stdout "no player found."], Ok 0%Z).
Proof.
  rewrite main_one_arg; unfold getMediaPlayerInstances.
  rewrite Hc, Hp, Hl; reflexivity.
Qed.

(** C7 (as the code has it): an unknown command is only rejected by
    [evalActions], after discovery and aggregation. The run never
    dispatches a call; it prints the usage text and exits with 127
    exactly when the connection succeeds, some player is discovered and
    aggregation completes; otherwise it ends as it would for any other
    command (exit 1, 2 or 3, or "no player found." and 0). *)
Theorem invalid_command_rejected_late (bus : Bus) (prog cmd : string)
  (Hinv : valid_command cmd = false) :
  no_dispatch (main bus prog [cmd]) /\
  (snd (main bus prog [cmd]) = Halt 127%Z <->
     connect_ok bus = true /\
     exists t ps t' m, getMediaPlayerInstances bus = (t, Ok ps) /\ ps <> [] /\
                       getMediaPlayerStates bus ps = (t', Ok m)) /\
  (snd (main bus prog [cmd]) = Halt 127%Z ->
     exists t, fst (main bus prog [cmd]) =
               (t ++ [Stderr ("Unknown method " ++ cmd); Stdout (usage_line prog)])%list) /\
  (snd (main bus prog [cmd]) <> Halt 127%Z ->
     forall cmd', main bus prog [cmd] = main bus prog [cmd']).
Proof.
  split; [apply main_invalid_no_dispatch; exact Hinv|].
  destruct (connect_ok bus) eqn:Hc.
  2:{ assert (E : forall c, main bus prog [c] =
                   ([BusConnect; Stderr "The user's session bus is not available."], Ok 1%Z))
        by (intros c; rewrite main_one_arg, Hc; reflexivity).
      rewrite E; simpl; split; [split; [discriminate | intros [H _]; discriminate]|].
      split; [discriminate | intros _ c; rewrite E; reflexivity]. }
  destruct (getMediaPlayerInstances bus) as [t1 [ps|z]] eqn:E1.
  2:{ assert (E : forall c, main bus prog [c] = ((BusConnect :: t1)%list, Halt z))
        by (intros c; rewrite main_one_arg, Hc, E1; reflexivity).
      assert (Hz : z = 2%Z)
        by (apply (getMediaPlayerInstances_halts bus); rewrite E1; reflexivity).
      subst z; rewrite E; simpl.
      split; [split; [discriminate | intros (_ & t & ps & _ & _ & H & _); congruence]|].
      split; [discriminate | intros _ c; rewrite E; reflexivity]. }
  destruct ps as [|p ps].
  { assert (E : forall c, main bus prog [c] =
                  ((BusConnect :: t1 ++ [Stdout "no player found."])%list, Ok 0%Z))
        by (intros c; rewrite main_one_arg, Hc, E1; simpl; rewrite ?app_nil_r; reflexivity).
      rewrite E; simpl.
      split; [split; [discriminate | intros (_ & t & ps & _ & _ & H & Hne & _); congruence]|].
      split; [discriminate | intros _ c; rewrite E; reflexivity]. }
  destruct (getMediaPlayerStates bus (p :: ps)) as [t2 [m|z]] eqn:E2.
  2:{ assert (E : forall c, main bus prog [c] = ((BusConnect :: t1 ++ t2)%list, Halt z))
        by (intros c; rewrite main_one_arg, Hc, E1; simpl; rewrite E2; reflexivity).
      assert (Hz : z = 3%Z)
        by (apply (states_loop_halts bus (p :: ps) []);
            unfold getMediaPlayerStates in E2; rewrite E2; reflexivity).
      subst z; rewrite E; simpl.
      split; [split; [discriminate|] | split; [discriminate | intros _ c; rewrite E; reflexivity]].
      intros (_ & t & ps' & t' & m & H & _ & H2).
      inversion H; subst; congruence. }
  assert (E : main bus prog [cmd] =
              ((BusConnect :: t1 ++ t2 ++
                [Stderr ("Unknown method " ++ cmd); Stdout (usage_line prog)])%list,
               Halt 127%Z))
    by (rewrite main_one_arg, Hc, E1; simpl; rewrite E2; simpl;
        rewrite evalActions_invalid by exact Hinv; reflexivity).
  rewrite E; simpl.
  split; [split; [intros _; split; [reflexivity|]; exists t1, (p :: ps), t2, m;
                  split; [reflexivity | split; [discriminate | exact E2]]
                 | reflexivity]|].
  split; [intros _; exists (BusConnect :: t1 ++ t2)%list; simpl; rewrite app_assoc; reflexivity|].
  intros H; exfalso; apply H; reflexivity.
Qed.

(** ** Counterexamples and instances at concrete inputs *)

(** C1 is false as stated: with [ListNames] failing the program does not
    end fatally; it reports "no player found." and returns 0. *)
Lemma registrar_failure_counterexample :
  snd (main (bus_vlc None) "mediaplayerctl" ["play"]) = Ok 0%Z /\
  In (Stdout "no player found.") (fst (main (bus_vlc None) "mediaplayerctl" ["play"])).
Proof. split; [reflexivity | simpl; tauto]. Qed.

Lemma registrar_failure_witness :
  connect_ok (bus_vlc None) = true /\
  proxy_ok (bus_vlc None) registrar registrar_path registrar = true /\
  list_names (bus_vlc None) = None /\
  main (bus_vlc None) "mediaplayerctl" ["play"] =
  ([BusConnect; BusProxy registrar registrar_path registrar;
    BusCall registrar registrar "ListNames"; Stderr got_error;
    Stdout "no player found."], Ok 0%Z).
Proof.
  split; [reflexivity|split; [reflexivity|split; [reflexivity|]]].
  apply registrar_failure_not_fatal; reflexivity.
Defined.

(** C7 is false as stated: an unknown command with one player running
    connects to the bus and queries the player before exiting with 127,
    and with no player running it exits with 0 without the usage text. *)
Lemma invalid_command_counterexample :
  existsb is_bus_event (fst (main (bus_vlc (Some [vlc])) "mediaplayerctl" ["bogus"])) = true /\
  snd (main (bus_vlc (Some [vlc])) "mediaplayerctl" ["bogus"]) = Halt 127%Z /\
  snd (main (bus_vlc (Some [])) "mediaplayerctl" ["bogus"]) = Ok 0%Z /\
  ~ In (Stdout (usage_line "mediaplayerctl"))
       (fst (main (bus_vlc (Some [])) "mediaplayerctl" ["bogus"])).
Proof.
  split; [reflexivity|split; [reflexivity|split; [reflexivity|]]].
  simpl; intuition discriminate.
Qed.

Lemma invalid_command_witness :
  valid_command "bogus" = false /\
  (snd (main (bus_vlc (Some [vlc])) "mediaplayerctl" ["bogus"]) = Halt 127%Z <->
     connect_ok (bus_vlc (Some [vlc])) = true /\
     exists t ps t' m, getMediaPlayerInstances (bus_vlc (Some [vlc])) = (t, Ok ps) /\
       ps <> [] /\ getMediaPlayerStates (bus_vlc (Some [vlc])) ps = (t', Ok m)).
Proof.
  split; [reflexivity|].
  apply (invalid_command_rejected_late (bus_vlc (Some [vlc])) "mediaplayerctl" "bogus");
  reflexivity.
Defined.

(** C8 is false as stated: a reply whose only text is the fullwidth
    spelling of "Playing", which is none of the three state names, is
    recorded as PLAYING, since NFKC normalisation makes it compare equal to
    "Playing". *)
Lemma aggregate_fullwidth_counterexample :
  get_status bus_fullwidth vlc = Some [playing_fullwidth] /\
  playing_fullwidth <> "Playing" /\ playing_fullwidth <> "Paused" /\
  playing_fullwidth <> "Stopped" /\
  snd (getMediaPlayerStates bus_fullwidth [vlc]) = Ok [(vlc, PLAYING)].
Proof.
  split; [reflexivity|].
  split; [discriminate|split; [discriminate|split; [discriminate|reflexivity]]].
Qed.

Lemma aggregate_classify_witness :
  getMediaPlayerStates bus_mixed players_mixed =
    (fst (getMediaPlayerStates bus_mixed players_mixed), Ok [(vlc, PLAYING)]) /\
  map_lookup vlc [(vlc, PLAYING)] =
    classify_reply (ustring_eq bus_mixed) (get_status bus_mixed vlc) /\
  ~ In spotify (map fst [(vlc, PLAYING)]) /\ ~ In mpv (map fst [(vlc, PLAYING)]).
Proof.
  assert (H : getMediaPlayerStates bus_mixed players_mixed =
              (fst (getMediaPlayerStates bus_mixed players_mixed), Ok [(vlc, PLAYING)]))
    by reflexivity.
  destruct (aggregate_classify _ _ _ _ H) as [Hin Hout].
  split; [exact H|split; [apply Hin; simpl; tauto|split]];
  apply Hout; reflexivity.
Defined.

Lemma pipeline_keys_witness :
  getMediaPlayerStates bus_mixed players_mixed =
    (fst (getMediaPlayerStates bus_mixed players_mixed), Ok [(vlc, PLAYING)]) /\
  In vlc players_mixed /\
  evalActions "mediaplayerctl" "stop" st_playing =
    ([], Ok [("A", "Stop"); ("B", "Stop"); ("C", "Stop")]) /\
  In "B" (map fst st_playing).
Proof.
  assert (H1 : getMediaPlayerStates bus_mixed players_mixed =
               (fst (getMediaPlayerStates bus_mixed players_mixed), Ok [(vlc, PLAYING)]))
    by reflexivity.
  assert (H2 : evalActions "mediaplayerctl" "stop" st_playing =
               ([], Ok [("A", "Stop"); ("B", "Stop"); ("C", "Stop")]))
    by reflexivity.
  split; [exact H1|split; [|split; [exact H2|]]].
  - apply (proj1 pipeline_keys _ _ _ _ H1); simpl; auto.
  - apply (proj2 pipeline_keys _ _ _ _ _ H2); simpl; auto.
Defined.

Lemma resolve_pause_witness :
  evalActions "mediaplayerctl" "pause" st_stopped = ret [] /\
  (forall k, In k ["A"; "C"] <-> In (k, PLAYING) st_playing).
Proof.
  split.
  - destruct (resolve_pause "mediaplayerctl" st_stopped) as (plan & E & Hnil & _).
    rewrite E, Hnil; [reflexivity|].
    intros k [H|[H|[]]]; discriminate.
  - destruct (resolve_pause "mediaplayerctl" st_playing) as (plan & E & _ & Hk & _).
    assert (E' : evalActions "mediaplayerctl" "pause" st_playing =
                 ret [("A", "Pause"); ("C", "Pause")]) by reflexivity.
    rewrite E in E'; inversion E'; subst plan.
    exact Hk.
Defined.

Lemma resolve_play_witness :
  exists p, evalActions "mediaplayerctl" "play" st_paused = ret [(p, "Play")] /\
            In (p, PAUSED) st_paused.
Proof.
  destruct (resolve_play "mediaplayerctl" st_paused) as (plan & E & _ & _ & Hpaused & _).
  destruct Hpaused as (p & -> & Hp).
  - intros k [H|[H|[H|[]]]]; discriminate.
  - exists "B"; simpl; auto.
  - exists p; split; assumption.
Defined.

Lemma resolve_stop_witness :
  exists plan, evalActions "mediaplayerctl" "stop" st_stopped = ret plan /\
               ~ In "A" (map fst plan).
Proof.
  destruct (resolve_stop "mediaplayerctl" st_stopped) as (plan & E & _ & _ & Hout).
  exists plan; split; [exact E|].
  apply Hout; intros s [H|[H|[]]]; inversion H; reflexivity.
Defined.

Lemma resolve_playpause_witness :
  evalActions "mediaplayerctl" "playpause" st_playing =
    evalActions "mediaplayerctl" "pause" st_playing /\
  evalActions "mediaplayerctl" "playpause" st_paused =
    evalActions "mediaplayerctl" "play" st_paused.
Proof.
  split.
  - apply (proj1 (resolve_playpause "mediaplayerctl" st_playing)).
    exists "A"; simpl; auto.
  - apply (proj2 (resolve_playpause "mediaplayerctl" st_paused)).
    intros k [H|[H|[H|[]]]]; discriminate.
Defined.

Lemma resolve_next_prev_witness :
  exists p, In (p, PLAYING) st_playing /\
    evalActions "mediaplayerctl" "next" st_playing = ret [(p, "Next")] /\
    evalActions "mediaplayerctl" "prev" st_playing = ret [(p, "Previous")].
Proof.
  destruct (resolve_next_prev "mediaplayerctl" st_playing)
    as (pn & pp & En & Ep & Hsome & _).
  destruct Hsome as (p & Hp & -> & ->); [exists "A"; simpl; auto|].
  exists p; split; [exact Hp | split; assumption].
Defined.

Lemma resolve_pick_least_witness :
  (exists p, least_in STOPPED st_stopped p /\
     evalActions "mediaplayerctl" "play" st_stopped = ret [(p, "Play")]) /\
  (exists p, least_in PLAYING st_playing p /\
     evalActions "mediaplayerctl" "next" st_playing = ret [(p, "Next")]).
Proof.
  destruct (resolve_pick_least "mediaplayerctl" st_stopped) as (_ & Hstopped & _).
  destruct (resolve_pick_least "mediaplayerctl" st_playing) as (_ & _ & Hplaying).
  split.
  - destruct Hstopped as (p & Hl & Ep & _).
    + intros k [H|[H|[]]]; discriminate.
    + intros k [H|[H|[]]]; discriminate.
    + exists "A"; simpl; auto.
    + exists p; split; assumption.
  - destruct Hplaying as (p & Hl & En & _); [exists "A"; simpl; auto|].
    exists p; split; assumption.
Defined.

(** ** Further properties of the program *)

(** X1: with no command argument or more than one, the program prints
    the usage text and exits with 127 before touching the bus. *)
Theorem wrong_arg_count (bus : Bus) (prog : string) (args : list string)
  (H : length args <> 1) :
  main bus prog args = ([Stdout (usage_line prog)], Halt 127%Z).
Proof.
  destruct args as [|a [|b args]]; [reflexivity | simpl in H; lia | reflexivity].
Qed.

Lemma filter_names_In names acc x :
  In x (filter_names names acc)
  <-> In x acc \/ (In x names /\ String.prefix mpris_prefix x = true).
Proof.
  unfold filter_names; revert acc; induction names as [|n names IH]; intros acc; simpl.
  - tauto.
  - rewrite IH.
    destruct (String.prefix mpris_prefix n) eqn:E.
    + rewrite set_insert_In; intuition (subst; auto).
    + split; [intuition|].
      intros [H | [[<- | H] Hp]]; auto; congruence.
Qed.

Lemma filter_names_sorted names acc :
  Sorted str_lt acc -> Sorted str_lt (filter_names names acc).
Proof.
  unfold filter_names; revert acc; induction names as [|n names IH]; intros acc H;
  simpl; auto.
  apply IH; destruct (String.prefix _ _); auto using set_insert_sorted.
Qed.

Lemma sorted_NoDup (l : list string) : Sorted str_lt l -> NoDup l.
Proof.
  intros H; apply Sorted_StronglySorted in H; [|exact str_lt_trans].
  induction H as [|a l _ IH Hall]; constructor; auto.
  intros Hin; eapply Forall_forall in Hall; [|exact Hin].
  unfold str_lt in Hall; rewrite compare_refl in Hall; discriminate.
Qed.

Lemma getMediaPlayerInstances_Ok bus t ps :
  getMediaPlayerInstances bus = (t, Ok ps) ->
  match list_names bus with
  | Some names => ps = filter_names names []
  | None => ps = []
  end.
Proof.
  unfold getMediaPlayerInstances.
  destruct (proxy_ok bus registrar registrar_path registrar); [|discriminate].
  destruct (list_names bus); simpl; intros H; inversion H; reflexivity.
Qed.

(** X2: a discovered player is exactly a name of the [ListNames] reply
    that starts with "org.mpris.MediaPlayer2."; when the call fails
    nothing is discovered. *)
Theorem discovery_filter (bus : Bus) (t : list event) (ps : PlayerSet)
  (H : getMediaPlayerInstances bus = (t, Ok ps)) :
  forall x, In x ps <->
    exists names, list_names bus = Some names /\ In x names /\
                  String.prefix mpris_prefix x = true.
Proof.
  apply getMediaPlayerInstances_Ok in H.
  intros x; destruct (list_names bus) as [names|]; subst ps.
  - rewrite filter_names_In; simpl; split.
    + intros [[] | [Hx Hp]]; eauto.
    + intros (n & E & Hx & Hp); inversion E; subst; auto.
  - simpl; split; [tauto | intros (n & E & _); discriminate].
Qed.

(** X3: the discovered set is in lexicographic order, without
    duplicates, whatever the order and repetitions of the reply. *)
Theorem discovery_sorted (bus : Bus) (t : list event) (ps : PlayerSet)
  (H : getMediaPlayerInstances bus = (t, Ok ps)) :
  Sorted str_lt ps /\ NoDup ps.
Proof.
  assert (Hs : Sorted str_lt ps).
  { apply getMediaPlayerInstances_Ok in H.
    destruct (list_names bus); subst; [apply filter_names_sorted|]; constructor. }
  split; [exact Hs | apply sorted_NoDup; exact Hs].
Qed.

(** X4: discovery ends the program only when the registrar proxy cannot
    be created, and then with code 2. *)
Theorem discovery_halts (bus : Bus) (z : Z) :
  snd (getMediaPlayerInstances bus) = Halt z <->
  proxy_ok bus registrar registrar_path registrar = false /\ z = 2%Z.
Proof.
  unfold getMediaPlayerInstances.
  destruct (proxy_ok bus registrar registrar_path registrar); simpl.
  - destruct (list_names bus); simpl; split; try discriminate; intros [H _]; discriminate.
  - split; [intros H; inversion H; auto | intros [_ ->]; reflexivity].
Qed.

Lemma map_assign_HdRel {V} x k (v : V) m :
  str_lt x k -> HdRel str_lt x (map fst m) -> HdRel str_lt x (map fst (map_assign k v m)).
Proof.
  intros Hxk Hm; destruct m as [|[k' v'] m]; simpl.
  - constructor; exact Hxk.
  - destruct (String.compare k k'); simpl; constructor; auto; now inversion Hm.
Qed.

Lemma map_assign_sorted {V} k (v : V) m :
  Sorted str_lt (map fst m) -> Sorted str_lt (map fst (map_assign k v m)).
Proof.
  induction m as [|[k' v'] m IH]; intros Hs; simpl.
  - repeat constructor.
  - simpl in Hs; apply Sorted_inv in Hs as [Hs Hhd].
    destruct (String.compare k k') eqn:E; simpl.
    + apply compare_Eq in E; subst; constructor; auto.
    + constructor; [constructor; auto | constructor; exact E].
    + constructor; [auto | apply map_assign_HdRel; auto using compare_Gt].
Qed.

Lemma eval_state_sorted bus player acc t r :
  eval_state bus player acc = (t, Ok r) ->
  Sorted str_lt (map fst acc) -> Sorted str_lt (map fst r).
Proof.
  intros H Hs; pose proof (eval_state_Ok bus player acc) as E; rewrite H in E.
  simpl in E; inversion E; subst.
  destruct (classify_reply _ _); auto using map_assign_sorted.
Qed.

Lemma eval_state_queries bus player acc :
  get_queries (fst (eval_state bus player acc)) = [].
Proof.
  unfold eval_state; repeat effects_step; reflexivity.
Qed.

(** X5: the state map built by aggregation is in lexicographic order of
    players, one entry per player. *)
Theorem aggregate_sorted (bus : Bus) (players : PlayerSet) (t : list event)
  (m : PlayerStates) (H : getMediaPlayerStates bus players = (t, Ok m)) :
  Sorted str_lt (map fst m) /\ NoDup (map fst m).
Proof.
  assert (Hs : Sorted str_lt (map fst m)).
  { unfold getMediaPlayerStates in H.
    assert (Hacc : Sorted str_lt (map fst ([] : PlayerStates))) by constructor.
    revert H Hacc; generalize ([] : PlayerStates) as acc; revert t.
    induction players as [|player rest IH]; intros t acc H Hacc.
    - inversion H; subst; exact Hacc.
    - cbn [states_loop] in H.
      apply bind_Ok in H as (t1 & [] & t2 & _ & H & _).
      destruct (negb (proxy_ok bus player mpris_path props_iface));
        [apply bind_Ok in H as (? & ? & ? & _ & H & _); discriminate|].
      apply bind_Ok in H as (t3 & [] & t4 & _ & H & _).
      apply bind_Ok in H as (t5 & acc' & t6 & Hst & H & _).
      eapply IH; [exact H | eapply eval_state_sorted; eassumption]. }
  split; [exact Hs | apply sorted_NoDup; exact Hs].
Qed.

(** X6: aggregation queries every player once, in the order of the
    player set, whatever the replies. *)
Theorem aggregate_query_order (bus : Bus) (players : PlayerSet) (t : list event)
  (m : PlayerStates) (H : getMediaPlayerStates bus players = (t, Ok m)) :
  get_queries t = players.
Proof.
  unfold getMediaPlayerStates in H.
  revert H; generalize ([] : PlayerStates) as acc; revert t m.
  induction players as [|player rest IH]; intros t m acc H.
  - inversion H; reflexivity.
  - cbn [states_loop] in H.
    apply bind_Ok in H as (t1 & [] & t2 & E1 & H & ->).
    inversion E1; subst t1; clear E1.
    destruct (negb (proxy_ok bus player mpris_path props_iface));
      [apply bind_Ok in H as (? & ? & ? & _ & H & _); discriminate|].
    apply bind_Ok in H as (t3 & [] & t4 & E3 & H & ->).
    inversion E3; subst t3; clear E3.
    apply bind_Ok in H as (t5 & acc' & t6 & Hst & H & ->).
    unfold get_queries in *; rewrite !flat_map_app.
    pose proof (eval_state_queries bus player acc) as Hq; rewrite Hst in Hq.
    unfold get_queries in Hq; simpl in Hq |- *.
    rewrite Hq, (IH _ _ _ H); reflexivity.
Qed.

(** X7: aggregation ends the program (with code 3) exactly when the
    property proxy of some player cannot be created. *)
Theorem aggregate_halts (bus : Bus) (players : PlayerSet) (z : Z) :
  snd (getMediaPlayerStates bus players) = Halt z <->
  z = 3%Z /\ exists p, In p players /\ proxy_ok bus p mpris_path props_iface = false.
Proof.
  unfold getMediaPlayerStates; generalize ([] : PlayerStates) as acc.
  induction players as [|player rest IH]; intros acc; cbn [states_loop].
  - simpl; split; [discriminate | intros (_ & p & [] & _)].
  - rewrite bind_snd; cbn [snd emit].
    destruct (proxy_ok bus player mpris_path props_iface) eqn:Ep; cbn [negb].
    + rewrite bind_snd; cbn [snd emit].
      rewrite bind_snd, eval_state_Ok, IH.
      split.
      * intros (-> & p & Hp & Hf); split; [reflexivity|]; exists p; simpl; auto.
      * intros (-> & p & [<- | Hp] & Hf); [congruence|]; split; eauto.
    + rewrite bind_snd; cbn [snd emit halt].
      split; [intros Hz; inversion Hz; split; [reflexivity|]; exists player; simpl; auto
             | intros [-> _]; reflexivity].
Qed.

Lemma execMediaPlayerMethod_snd bus p m :
  snd (execMediaPlayerMethod bus p m) =
  if proxy_ok bus p mpris_path player_iface then Ok tt else Halt 4%Z.
Proof.
  unfold execMediaPlayerMethod.
  destruct (proxy_ok bus p mpris_path player_iface); simpl; [|reflexivity].
  destruct (method_ok bus p m); reflexivity.
Qed.

Lemma execMediaPlayerMethod_dispatched bus p m :
  proxy_ok bus p mpris_path player_iface = true ->
  dispatched (fst (execMediaPlayerMethod bus p m)) = [(p, m)].
Proof.
  intros H; unfold execMediaPlayerMethod; rewrite H; simpl.
  destruct (method_ok bus p m); reflexivity.
Qed.

(** X8: when every player to be called has a control proxy, dispatch
    calls exactly the entries of the plan with a non-empty method, in the
    order of the plan, and a failing call does not stop the others. *)
Theorem dispatch_calls (bus : Bus) (actions : PlayerActions)
  (H : forall p m, In (p, m) actions -> m <> "" ->
       proxy_ok bus p mpris_path player_iface = true) :
  snd (dispatch bus actions) = Ok tt /\
  dispatched (fst (dispatch bus actions)) =
  filter (fun a => negb (snd a =? "")) actions.
Proof.
  induction actions as [|[p m] rest IH]; [split; reflexivity|].
  cbn [dispatch]; rewrite bind_snd, bind_fst.
  assert (IH' := IH (fun p' m' Hin => H p' m' (or_intror Hin))); clear IH.
  destruct (m =? "") eqn:Em; cbn [snd fst ret negb filter]; simpl snd;
    rewrite Em; cbn [negb].
  - exact IH'.
  - assert (Hp : proxy_ok bus p mpris_path player_iface = true).
    { apply (H p m); [left; reflexivity|].
      intros ->; discriminate. }
    rewrite execMediaPlayerMethod_snd, Hp.
    destruct IH' as [IHs IHd]; split; [exact IHs|].
    unfold dispatched in *; rewrite flat_map_app, IHd.
    fold (dispatched (fst (execMediaPlayerMethod bus p m))).
    rewrite execMediaPlayerMethod_dispatched by exact Hp; reflexivity.
Qed.

(** X9: dispatch ends the program (with code 4) exactly when the control
    proxy of a player with a non-empty method cannot be created. *)
Theorem dispatch_halts (bus : Bus) (actions : PlayerActions) (z : Z) :
  snd (dispatch bus actions) = Halt z <->
  z = 4%Z /\ exists p m, In (p, m) actions /\ m <> "" /\
                         proxy_ok bus p mpris_path player_iface = false.
Proof.
  induction actions as [|[p m] rest IH].
  - simpl; split; [discriminate | intros (_ & p & m & [] & _)].
  - cbn [dispatch]; rewrite bind_snd.
    destruct (m =? "") eqn:Em; cbn [snd ret].
    + apply String.eqb_eq in Em; subst m; rewrite IH.
      split.
      * intros (-> & p' & m' & Hin & Hm & Hf); split; [reflexivity|].
        exists p', m'; simpl; auto.
      * intros (-> & p' & m' & [Heq | Hin] & Hm & Hf);
          [inversion Heq; congruence | split; eauto 6].
    + rewrite execMediaPlayerMethod_snd.
      assert (Hm : m <> "") by (intros ->; discriminate).
      destruct (proxy_ok bus p mpris_path player_iface) eqn:Ep.
      * rewrite IH; split.
        -- intros (-> & p' & m' & Hin & Hm' & Hf); split; [reflexivity|].
           exists p', m'; simpl; auto.
        -- intros (-> & p' & m' & [Heq | Hin] & Hm' & Hf);
             [inversion Heq; congruence | split; eauto 6].
      * split; [intros Hz; inversion Hz; split; [reflexivity|];
                exists p, m; simpl; auto
               | intros [-> _]; reflexivity].
Qed.

Lemma assign_first_vals_nil players meth k v :
  In (k, v) (assign_first players meth []) -> v = meth.
Proof. destruct players; simpl; [tauto | intros [H | []]; inversion H; reflexivity]. Qed.

Lemma assign_all_vals_nil players meth k v :
  In (k, v) (assign_all players meth []) -> v = meth.
Proof. intros H; destruct (assign_all_vals _ _ _ _ _ H) as [-> | []]; reflexivity. Qed.

Lemma assign_all_sorted players meth result :
  Sorted str_lt (map fst result) -> Sorted str_lt (map fst (assign_all players meth result)).
Proof.
  unfold assign_all; revert result.
  induction players as [|p players IH]; intros result H; simpl; auto using map_assign_sorted.
Qed.

Lemma assign_first_sorted players meth :
  Sorted str_lt (map fst (assign_first players meth [])).
Proof. destruct players; simpl; repeat constructor. Qed.

(** Split [evalActions] into its command branches. *)
Ltac evalActions_cases H :=
  unfold evalActions in H;
  destruct (_ =? "play");
  [|destruct (_ =? "pause");
  [|destruct (_ =? "playpause");
  [|destruct (_ =? "stop");
  [|destruct (_ =? "next");
  [|destruct (_ =? "prev")]]]]];
  inversion H; subst; clear H.

(** X10: every method of a plan is one of the five player methods, so
    no entry of a plan is empty. *)
Theorem plan_methods (prog cmd : string) (st : PlayerStates) (t : list event)
  (plan : PlayerActions) (H : evalActions prog cmd st = (t, Ok plan)) :
  forall k v, In (k, v) plan -> In v ["Play"; "Pause"; "Stop"; "Next"; "Previous"].
Proof.
  intros k v Hin; evalActions_cases H;
  repeat match goal with
         | Hin : context [if ?b then _ else _] |- _ => destruct b
         end;
  simpl in Hin; try contradiction;
  first [ apply assign_first_vals_nil in Hin | apply assign_all_vals_nil in Hin ];
  subst; simpl; tauto.
Qed.

(** X11: a plan is in lexicographic order of players, one entry per
    player, so dispatch calls the players in that order. *)
Theorem plan_sorted (prog cmd : string) (st : PlayerStates) (t : list event)
  (plan : PlayerActions) (H : evalActions prog cmd st = (t, Ok plan)) :
  Sorted str_lt (map fst plan) /\ NoDup (map fst plan).
Proof.
  assert (Hs : Sorted str_lt (map fst plan)).
  { evalActions_cases H;
    repeat match goal with |- context [if ?b then _ else _] => destruct b end;
    solve [ apply assign_first_sorted | apply assign_all_sorted; constructor
          | constructor ]. }
  split; [exact Hs | apply sorted_NoDup; exact Hs].
Qed.

(** X12: [evalActions] returns a plan, printing nothing, exactly for the
    six commands; for any other string it prints "Unknown method" and the
    usage text and ends the program with exit code 127. *)
Theorem evalActions_valid (prog cmd : string) (st : PlayerStates) :
  ((exists plan, evalActions prog cmd st = ([], Ok plan)) <-> valid_command cmd = true) /\
  (valid_command cmd = false ->
   evalActions prog cmd st =
     ([Stderr ("Unknown method " ++ cmd); Stdout (usage_line prog)], Halt 127%Z)).
Proof.
  split; [|apply evalActions_invalid].
  destruct (valid_command cmd) eqn:V.
  - split; [reflexivity | intros _].
    unfold valid_command in V; simpl in V.
    unfold evalActions.
    destruct (cmd =? "play"); [eexists; reflexivity|].
    destruct (cmd =? "pause"); [eexists; reflexivity|].
    destruct (cmd =? "playpause"); [eexists; reflexivity|].
    destruct (cmd =? "stop"); [eexists; reflexivity|].
    destruct (cmd =? "next"); [eexists; reflexivity|].
    destruct (cmd =? "prev"); [eexists; reflexivity | discriminate].
  - split; [|discriminate].
    intros [plan E]; rewrite evalActions_invalid in E by exact V; discriminate.
Qed.

Lemma no_dispatch_dispatched {A} (m : M A) : no_dispatch m -> dispatched (fst m) = [].
Proof.
  unfold no_dispatch, dispatched; induction (fst m) as [|e t IH]; simpl; auto.
  intros H; apply andb_true_iff in H as [He Ht].
  rewrite (IH Ht); destruct e; simpl in *; try reflexivity.
  destruct (iface =? player_iface); [discriminate | reflexivity].
Qed.

Lemma getMediaPlayerInstances_queries bus :
  get_queries (fst (getMediaPlayerInstances bus)) = [].
Proof. unfold getMediaPlayerInstances; repeat effects_step; reflexivity. Qed.

(** X13: for a run that connects, discovers players, aggregates their
    states and resolves the command, where every targeted player has a
    control proxy, [main] calls exactly the plan, entry by entry in its
    order, and returns 0. *)
Theorem main_dispatches_plan (bus : Bus) (prog cmd : string)
  (t1 : list event) (ps : PlayerSet) (t2 : list event) (m : PlayerStates)
  (t3 : list event) (plan : PlayerActions)
  (Hc : connect_ok bus = true)
  (E1 : getMediaPlayerInstances bus = (t1, Ok ps)) (Hne : ps <> [])
  (E2 : getMediaPlayerStates bus ps = (t2, Ok m))
  (E3 : evalActions prog cmd m = (t3, Ok plan))
  (Hp : forall p v, In (p, v) plan -> proxy_ok bus p mpris_path player_iface = true) :
  snd (main bus prog [cmd]) = Ok 0%Z /\ dispatched (fst (main bus prog [cmd])) = plan.
Proof.
  assert (Hvals : forall p v, In (p, v) plan -> v <> "").
  { intros p v Hin Hv; pose proof (plan_methods _ _ _ _ _ E3 p v Hin) as Hm.
    subst v; simpl in Hm; intuition discriminate. }
  destruct (dispatch_calls bus plan (fun p v Hin _ => Hp p v Hin)) as [Ds Dd].
  destruct (dispatch bus plan) as [t4 r4] eqn:E4; simpl in Ds, Dd; subst r4.
  assert (Ht3 : t3 = []) by (evalActions_cases E3; reflexivity); subst t3.
  assert (D1 : dispatched t1 = [])
    by (pose proof (getMediaPlayerInstances_no_dispatch bus) as N;
        rewrite E1 in N; exact (no_dispatch_dispatched _ N)).
  assert (D2 : dispatched t2 = [])
    by (pose proof (states_loop_no_dispatch bus ps []) as N;
        unfold getMediaPlayerStates in E2; rewrite E2 in N;
        exact (no_dispatch_dispatched _ N)).
  assert (Hf : filter (fun a => negb (snd a =? "")) plan = plan).
  { apply forallb_filter_id, forallb_forall; intros [p v] Hin; simpl.
    destruct (v =? "") eqn:Ev; [apply String.eqb_eq in Ev; destruct (Hvals p v Hin Ev)|].
    reflexivity. }
  destruct ps as [|p0 ps]; [contradiction|].
  rewrite main_one_arg, Hc, E1; simpl; rewrite E2; simpl; rewrite E3; simpl; rewrite E4; simpl.
  split; [reflexivity|].
  unfold dispatched in *; simpl; rewrite !flat_map_app, D1, D2; simpl.
  rewrite Dd, Hf, ?app_nil_r; reflexivity.
Qed.

(** X14: when discovery finds no player, whatever the command, the
    program queries no player state, dispatches nothing, prints
    "no player found." and returns 0. *)
Theorem main_no_player (bus : Bus) (prog cmd : string) (t1 : list event)
  (Hc : connect_ok bus = true)
  (E1 : getMediaPlayerInstances bus = (t1, Ok [])) :
  main bus prog [cmd] = ((BusConnect :: t1 ++ [Stdout "no player found."])%list, Ok 0%Z) /\
  get_queries (fst (main bus prog [cmd])) = [] /\
  dispatched (fst (main bus prog [cmd])) = [].
Proof.
  assert (E : main bus prog [cmd] =
              ((BusConnect :: t1 ++ [Stdout "no player found."])%list, Ok 0%Z))
    by (rewrite main_one_arg, Hc, E1; simpl; rewrite ?app_nil_r; reflexivity).
  pose proof (getMediaPlayerInstances_queries bus) as Q; rewrite E1 in Q.
  pose proof (getMediaPlayerInstances_no_dispatch bus) as N; rewrite E1 in N.
  apply no_dispatch_dispatched in N; cbn [fst] in Q, N.
  rewrite E; split; [reflexivity|]; simpl fst.
  unfold get_queries, dispatched in *; simpl; rewrite !flat_map_app, Q, N; split; reflexivity.
Qed.

(** ** Instances of the further properties at concrete inputs *)

Lemma wrong_arg_count_witness :
  length ["play"; "pause"] <> 1 /\
  main bus_mixed "mediaplayerctl" ["play"; "pause"] =
  ([Stdout (usage_line "mediaplayerctl")], Halt 127%Z).
Proof. split; [discriminate | apply wrong_arg_count; discriminate]. Defined.

Lemma discovery_filter_witness :
  getMediaPlayerInstances bus_mixed =
    (fst (getMediaPlayerInstances bus_mixed), Ok players_mixed) /\
  (In mpv players_mixed <->
     exists names, list_names bus_mixed = Some names /\ In mpv names /\
                   String.prefix mpris_prefix mpv = true).
Proof.
  assert (H : getMediaPlayerInstances bus_mixed =
              (fst (getMediaPlayerInstances bus_mixed), Ok players_mixed)) by reflexivity.
  split; [exact H | apply (discovery_filter _ _ _ H)].
Defined.

Lemma discovery_sorted_witness :
  getMediaPlayerInstances bus_mixed =
    (fst (getMediaPlayerInstances bus_mixed), Ok players_mixed) /\
  Sorted str_lt players_mixed /\ NoDup players_mixed.
Proof.
  assert (H : getMediaPlayerInstances bus_mixed =
              (fst (getMediaPlayerInstances bus_mixed), Ok players_mixed)) by reflexivity.
  split; [exact H | apply (discovery_sorted _ _ _ H)].
Defined.

Lemma aggregate_sorted_witness :
  getMediaPlayerStates bus_mixed players_mixed =
    (fst (getMediaPlayerStates bus_mixed players_mixed), Ok [(vlc, PLAYING)]) /\
  Sorted str_lt (map fst [(vlc, PLAYING)]) /\ NoDup (map fst [(vlc, PLAYING)]).
Proof.
  assert (H : getMediaPlayerStates bus_mixed players_mixed =
              (fst (getMediaPlayerStates bus_mixed players_mixed), Ok [(vlc, PLAYING)]))
    by reflexivity.
  split; [exact H | apply (aggregate_sorted _ _ _ _ H)].
Defined.

Lemma aggregate_query_order_witness :
  getMediaPlayerStates bus_mixed players_mixed =
    (fst (getMediaPlayerStates bus_mixed players_mixed), Ok [(vlc, PLAYING)]) /\
  get_queries (fst (getMediaPlayerStates bus_mixed players_mixed)) = players_mixed.
Proof.
  assert (H : getMediaPlayerStates bus_mixed players_mixed =
              (fst (getMediaPlayerStates bus_mixed players_mixed), Ok [(vlc, PLAYING)]))
    by reflexivity.
  split; [exact H | apply (aggregate_query_order _ _ _ _ H)].
Defined.

Lemma dispatch_calls_witness :
  snd (dispatch bus_mixed [("A", "Play"); ("B", ""); ("C", "Stop")]) = Ok tt /\
  dispatched (fst (dispatch bus_mixed [("A", "Play"); ("B", ""); ("C", "Stop")])) =
  [("A", "Play"); ("C", "Stop")].
Proof.
  apply (dispatch_calls bus_mixed [("A", "Play"); ("B", ""); ("C", "Stop")]).
  intros p m _ _; reflexivity.
Defined.

Lemma plan_methods_witness :
  evalActions "mediaplayerctl" "stop" st_playing =
    ([], Ok [("A", "Stop"); ("B", "Stop"); ("C", "Stop")]) /\
  In "Stop" ["Play"; "Pause"; "Stop"; "Next"; "Previous"].
Proof.
  assert (H : evalActions "mediaplayerctl" "stop" st_playing =
              ([], Ok [("A", "Stop"); ("B", "Stop"); ("C", "Stop")])) by reflexivity.
  split; [exact H | apply (plan_methods _ _ _ _ _ H "B"); simpl; auto].
Defined.

Lemma plan_sorted_witness :
  evalActions "mediaplayerctl" "stop" st_playing =
    ([], Ok [("A", "Stop"); ("B", "Stop"); ("C", "Stop")]) /\
  Sorted str_lt ["A"; "B"; "C"] /\ NoDup ["A"; "B"; "C"].
Proof.
  assert (H : evalActions "mediaplayerctl" "stop" st_playing =
              ([], Ok [("A", "Stop"); ("B", "Stop"); ("C", "Stop")])) by reflexivity.
  split; [exact H | apply (plan_sorted _ _ _ _ _ H)].
Defined.

Lemma main_dispatches_plan_witness :
  snd (main bus_mixed "mediaplayerctl" ["pause"]) = Ok 0%Z /\
  dispatched (fst (main bus_mixed "mediaplayerctl" ["pause"])) = [(vlc, "Pause")].
Proof.
  apply (main_dispatches_plan bus_mixed "mediaplayerctl" "pause"
           (fst (getMediaPlayerInstances bus_mixed)) players_mixed
           (fst (getMediaPlayerStates bus_mixed players_mixed)) [(vlc, PLAYING)] []).
  all: first [reflexivity | discriminate | intros p v _; reflexivity].
Defined.

Lemma main_no_player_witness :
  main (bus_vlc (Some ["org.freedesktop.DBus"])) "mediaplayerctl" ["play"] =
    ((BusConnect :: fst (getMediaPlayerInstances (bus_vlc (Some ["org.freedesktop.DBus"])))
      ++ [Stdout "no player found."])%list, Ok 0%Z) /\
  get_queries (fst (main (bus_vlc (Some ["org.freedesktop.DBus"])) "mediaplayerctl" ["play"])) = [] /\
  dispatched (fst (main (bus_vlc (Some ["org.freedesktop.DBus"])) "mediaplayerctl" ["play"])) = [].
Proof. apply main_no_player; reflexivity. Defined.
